(** * Tabbycat: break computation, adjudicator allocations and draw
      materialisation

    A shallow embedding of [debate/breaking.py] and of two methods of
    [debate/models.py] ([AdjudicatorAllocation.valid]/[save] and
    [Round.make_debates]), followed by the properties established about
    them.

    Conventions of the embedding.
    - Database integers ([IntegerField]) are [Z]; positions produced by
      [enumerate] and [len] are [nat] and are injected with [Z.of_nat]
      where the source compares them with a database integer.
    - A table with a [unique_together] pair is a [gmap] keyed by that pair.
    - Django model instances compare by primary key, so sets of teams are
      sets of primary keys.
    - The code is Python 2: [None] orders below every integer. *)

From stdpp Require Import gmap list sorting.

Open Scope Z_scope.

(** ** Data model ([debate/models.py]) *)

(** [BreakingTeam.REMARK_CHOICES]. *)
Inductive remark_code : Type :=
  | REMARK_CAPPED
  | REMARK_INELIGIBLE
  | REMARK_DIFFERENT_BREAK
  | REMARK_DISQUALIFIED
  | REMARK_LOST_COIN_TOSS
  | REMARK_WITHDRAWN.

#[global] Instance remark_code_eq_dec : EqDecision remark_code.
Proof. solve_decision. Defined.

(** The three rule constants that [breaking.py] reads from the category
    ([category.INSTITUTION_CAP_RULE_*]).  Their declaration is not part of
    [models.py]; they are taken to be three distinct choice values. *)
Inductive cap_rule : Type :=
  | INSTITUTION_CAP_RULE_NONE
  | INSTITUTION_CAP_RULE_AIDA_PRE_2015
  | INSTITUTION_CAP_RULE_AIDA_2016.

#[global] Instance cap_rule_eq_dec : EqDecision cap_rule.
Proof. solve_decision. Defined.

(** The fields of [BreakCategory] that the break computation reads. *)
Record BreakCategory : Type := {
  pk : Z;
  priority : Z;
  break_size : Z;
  is_general : bool;
  institution_cap : option Z;
  institution_cap_rule : cap_rule;
}.

(** A team as [annotate_team_standings] hands it to the break computation:
    primary key, institution, the annotated [points] and [speaker_score]
    (used only through equality and, for [points], the comparison with 5),
    and the primary keys of the categories in [team.break_categories]. *)
Record Team : Type := {
  id : Z;
  institution : Z;
  points : Z;
  speaker_score : Z;
  break_categories : list Z;
}.

(** The mutable fields of a [BreakingTeam] row; its [break_category] and
    [team] form the key of the table. *)
Record BreakingTeam : Type := {
  rank : Z;
  break_rank : option Z;
  remark : option remark_code;
}.

#[global] Instance BreakingTeam_eq_dec : EqDecision BreakingTeam.
Proof. solve_decision. Defined.

(** The [BreakingTeam] table is a [gmap (Z * Z) BreakingTeam], keyed by
    (category pk, team pk). *)

(** [BreakingTeam(break_category=category, team=team)]: a fresh object.
    Its [rank] is assigned before it is ever read. *)
Definition new_BreakingTeam : BreakingTeam :=
  {| rank := 0; break_rank := None; remark := None |}.

Definition set_rank (r : Z) (bt : BreakingTeam) : BreakingTeam :=
  {| rank := r; break_rank := break_rank bt; remark := remark bt |}.
Definition set_break_rank (b : option Z) (bt : BreakingTeam) : BreakingTeam :=
  {| rank := rank bt; break_rank := b; remark := remark bt |}.
Definition set_remark (m : option remark_code) (bt : BreakingTeam) : BreakingTeam :=
  {| rank := rank bt; break_rank := break_rank bt; remark := m |}.

(** ** [debate/breaking.py] *)

(** [n >= category.institution_cap] where the cap is a nullable column:
    in Python 2 every integer is [>= None]. *)
Definition ge_cap (n : Z) (cap : option Z) : bool :=
  match cap with
  | Some c => bool_decide (c ≤ n)
  | None => true
  end.

(** [_capped_out].  The body reads [category], [num_teams_from_institution]
    and [cur_rank]; the call site passes exactly these three, in this
    order, and the embedding binds them so (the [def] line of the source
    names its parameters [bt, category, num_teams_from_institution]). *)
Definition _capped_out (category : BreakCategory)
    (num_teams_from_institution : Z) (cur_rank : Z) : bool :=
  match institution_cap_rule category with
  | INSTITUTION_CAP_RULE_NONE => false
  | INSTITUTION_CAP_RULE_AIDA_PRE_2015 =>
      ge_cap num_teams_from_institution (institution_cap category)
  | INSTITUTION_CAP_RULE_AIDA_2016 =>
      if bool_decide (cur_rank ≤ break_size category)
      then ge_cap num_teams_from_institution (institution_cap category)
      else bool_decide (1 ≤ num_teams_from_institution)
  end.

(** One object of [breakingteams_all].  The source keeps the same objects
    in [breakingteams_to_save] or [breakingteams_to_create] as well; the
    embedding keeps one list and the [existing] flag, so that a later
    assignment to an object is seen through every list that holds it. *)
Record bt_object : Type := {
  bt_team : Z;
  bt_fields : BreakingTeam;
  bt_existing : bool;
}.

(** The local variables of the first loop of [_generate_teams_breaking]. *)
Record walk_state : Type := {
  prev_rank_value : option (Z * Z);
  cur_rank : Z;
  cur_break_rank : Z;
  cur_break_seq : Z;
  teams_breaking : list Team;
  breakingteams_all : list bt_object;
  num_teams_from_institution : gmap Z nat;
}.

Definition walk_init : walk_state :=
  {| prev_rank_value := None; cur_rank := 0; cur_break_rank := 0;
     cur_break_seq := 0; teams_breaking := []; breakingteams_all := [];
     num_teams_from_institution := ∅ |}.

(** [Counter.__getitem__]: a missing key counts 0. *)
Definition counter_get (c : gmap Z nat) (k : Z) : nat := default 0%nat (c !! k).
Definition counter_incr (c : gmap Z nat) (k : Z) : gmap Z nat :=
  <[k := S (counter_get c k)]> c.

Definition rank_value_of (team : Team) : Z * Z := (points team, speaker_score team).

(** Lines 139-140: [is_new_rank = rank_value != prev_rank_value]. *)
Definition is_new_rank_at (s : walk_state) (team : Team) : bool :=
  bool_decide (prev_rank_value s ≠ Some (rank_value_of team)).

(** Lines 143-148: the two [break] statements of the loop. *)
Definition walk_stops (category : BreakCategory) (s : walk_state) (team : Team) : bool :=
  is_new_rank_at s team &&
  (bool_decide (break_size category ≤ Z.of_nat (length (teams_breaking s)))
   || (bool_decide (institution_cap_rule category = INSTITUTION_CAP_RULE_AIDA_2016)
       && bool_decide (points team < 5))).

(** The body of the loop (lines 131-186) for the team at 1-based position
    [i]; [None] is [break]. *)
Definition walk_step (tbl : gmap (Z * Z) BreakingTeam) (category : BreakCategory)
    (teams_broken_higher_priority : gset Z) (i : nat) (team : Team)
    (s : walk_state) : option walk_state :=
  let found := tbl !! (pk category, id team) in
  let existing := bool_decide (is_Some found) in
  let bt := default new_BreakingTeam found in
  let is_new_rank := is_new_rank_at s team in
  if walk_stops category s team then None else
  let cur_rank' := if is_new_rank then Z.of_nat i else cur_rank s in
  let prev' := if is_new_rank then Some (rank_value_of team) else prev_rank_value s in
  let bt := set_rank cur_rank' bt in
  let count := counter_get (num_teams_from_institution s) (institution team) in
  let '(bt, seq', brk', breaking') :=
    if existing && bool_decide (is_Some (remark bt)) then
      (set_break_rank None bt, cur_break_seq s, cur_break_rank s, teams_breaking s)
    else if negb (bool_decide (pk category ∈ break_categories team)) then
      (set_remark (Some REMARK_INELIGIBLE) bt,
       cur_break_seq s, cur_break_rank s, teams_breaking s)
    else if _capped_out category (Z.of_nat count) cur_rank' then
      (set_remark (Some REMARK_CAPPED) bt,
       cur_break_seq s, cur_break_rank s, teams_breaking s)
    else if bool_decide (id team ∈ teams_broken_higher_priority) then
      (set_remark (Some REMARK_DIFFERENT_BREAK) bt,
       cur_break_seq s, cur_break_rank s, teams_breaking s)
    else
      let seq' := cur_break_seq s + 1 in
      let brk' := if is_new_rank then seq' else cur_break_rank s in
      (set_break_rank (Some brk') bt, seq', brk', teams_breaking s ++ [team])
  in
  Some {| prev_rank_value := prev';
          cur_rank := cur_rank';
          cur_break_rank := brk';
          cur_break_seq := seq';
          teams_breaking := breaking';
          breakingteams_all :=
            breakingteams_all s ++
            [{| bt_team := id team; bt_fields := bt; bt_existing := existing |}];
          num_teams_from_institution :=
            counter_incr (num_teams_from_institution s) (institution team) |}.

(** [for i, team in enumerate(eligible_teams, start=1)]. *)
Fixpoint walk_from (tbl : gmap (Z * Z) BreakingTeam) (category : BreakCategory) (higher : gset Z)
    (i : nat) (teams : list Team) (s : walk_state) : walk_state :=
  match teams with
  | [] => s
  | team :: rest =>
      match walk_step tbl category higher i team s with
      | None => s
      | Some s' => walk_from tbl category higher (S i) rest s'
      end
  end.

Definition walk (tbl : gmap (Z * Z) BreakingTeam) (category : BreakCategory) (higher : gset Z)
    (eligible_teams : list Team) : walk_state :=
  walk_from tbl category higher 1 eligible_teams walk_init.

(** Lines 188-205, "Bring back capped out teams if necessary to fill break",
    are an unfinished fragment of the source.  Its first loop (lines
    192-199) reads [bt.rank] and updates two local counters only (the
    decrement on line 197 has no right operand); it assigns to no object.
    Its second part (lines 202-205) walks a list [capped_breakingteams]
    that no statement of the function defines, and its only assignment is
    [bt.remark = None].  The embedding takes that list as an argument,
    given as positions in [breakingteams_all] since its objects are shared
    with that list, and keeps the assignment under the guards of the
    source. *)
Definition clear_remark (o : bt_object) : bt_object :=
  {| bt_team := bt_team o;
     bt_fields := set_remark None (bt_fields o);
     bt_existing := bt_existing o |}.

(** [for i, bt in enumerate(capped_breakingteams)]. *)
Fixpoint backfill_loop (category : BreakCategory) (num_breaking : nat)
    (i : nat) (capped_breakingteams : list nat) (all : list bt_object)
    : list bt_object :=
  match capped_breakingteams with
  | [] => all
  | pos :: rest =>
      let all' :=
        if bool_decide (break_size category - Z.of_nat num_breaking ≤ Z.of_nat i)
        then alter clear_remark pos all
        else all in
      backfill_loop category num_breaking (S i) rest all'
  end.

Definition backfill (category : BreakCategory) (breaking : list Team)
    (capped_breakingteams : list nat) (all : list bt_object) : list bt_object :=
  if bool_decide (Z.of_nat (length breaking) < break_size category)
  then backfill_loop category (length breaking) 0 capped_breakingteams all
  else all.

(** Lines 207-215.  [full_clean] validates and changes nothing; the
    assertion on line 208 holds by construction of the two sublists. *)
Definition breakingteams_to_save (all : list bt_object) : list bt_object :=
  filter (λ o, bt_existing o = true) all.
Definition breakingteams_to_create (all : list bt_object) : list bt_object :=
  filter (λ o, bt_existing o = false) all.

(** [bt.save()] for each object, and [bulk_create]: both write the row of
    the object's (category, team). *)
Definition write_rows (c : Z) (objs : list bt_object)
    (tbl : gmap (Z * Z) BreakingTeam) : gmap (Z * Z) BreakingTeam :=
  foldl (λ t o, <[(c, bt_team o) := bt_fields o]> t) tbl objs.

(** [filter(break_category=category, break_rank__isnull=False)
       .exclude(team_id__in=[t.id for t in teams_breaking]).delete()]:
    the rows that survive. *)
Definition row_kept (c : Z) (ids : list Z) (kr : (Z * Z) * BreakingTeam) : Prop :=
  ¬ (kr.1.1 = c ∧ is_Some (break_rank kr.2) ∧ kr.1.2 ∉ ids).

#[global] Instance row_kept_dec c ids kr : Decision (row_kept c ids kr).
Proof. unfold row_kept. apply _. Defined.

Definition delete_not_breaking (c : Z) (ids : list Z)
    (tbl : gmap (Z * Z) BreakingTeam) : gmap (Z * Z) BreakingTeam :=
  filter (row_kept c ids) tbl.

Definition persist (category : BreakCategory) (breaking : list Team)
    (all : list bt_object) (tbl : gmap (Z * Z) BreakingTeam)
    : gmap (Z * Z) BreakingTeam :=
  let tbl1 := write_rows (pk category) (breakingteams_to_save all) tbl in
  let tbl2 := write_rows (pk category) (breakingteams_to_create all) tbl1 in
  delete_not_breaking (pk category) (id <$> breaking) tbl2.

(** [_generate_teams_breaking(category, eligible_teams,
    teams_broken_higher_priority)]: the new table and the returned
    [teams_breaking].  [eligible_teams] is the list after
    [annotate_team_standings], in standings order. *)
Definition _generate_teams_breaking (tbl : gmap (Z * Z) BreakingTeam)
    (category : BreakCategory) (eligible_teams : list Team)
    (teams_broken_higher_priority : gset Z) (capped_breakingteams : list nat)
    : gmap (Z * Z) BreakingTeam * list Team :=
  let s := walk tbl category teams_broken_higher_priority eligible_teams in
  let all := backfill category (teams_breaking s) capped_breakingteams
               (breakingteams_all s) in
  (persist category (teams_breaking s) all tbl, teams_breaking s).

(** *** [update_all_teams_breaking] *)

Definition priority_le (a b : BreakCategory) : Prop := priority a ≤ priority b.

#[global] Instance priority_le_dec a b : Decision (priority_le a b).
Proof. unfold priority_le. apply _. Defined.

(** [tournament.breakcategory_set.order_by('priority')]. *)
Definition order_by_priority (cats : list BreakCategory) : list BreakCategory :=
  merge_sort priority_le cats.

(** One call made by the loop: the category, the exclusion set it was
    given and the break it returned.  The journal is not a variable of the
    source; it records the calls so that they can be spoken about. *)
Record call : Type := {
  call_category : BreakCategory;
  call_excluded : gset Z;
  call_break : list Team;
}.

Record all_state : Type := {
  teams_broken_higher_priority : gset Z;
  teams_broken_cur_priority : gset Z;
  cur_priority : option Z;
  breakingteam_table : gmap (Z * Z) BreakingTeam;
  journal : list call;
}.

(** The body of the loop of [update_all_teams_breaking].  [standings c] is
    [annotate_team_standings(_eligible_team_set(c))]; [capped c] is the
    list the backfill fragment reads during the call for [c]. *)
Definition update_all_step (standings : BreakCategory → list Team)
    (capped : BreakCategory → list nat) (st : all_state)
    (category : BreakCategory) : all_state :=
  let new_level := bool_decide (cur_priority st ≠ Some (priority category)) in
  let higher :=
    if new_level
    then teams_broken_higher_priority st ∪ teams_broken_cur_priority st
    else teams_broken_higher_priority st in
  let cur := if new_level then ∅ else teams_broken_cur_priority st in
  let '(tbl', this_break) :=
    _generate_teams_breaking (breakingteam_table st) category
      (standings category) higher (capped category) in
  {| teams_broken_higher_priority := higher;
     teams_broken_cur_priority := cur ∪ list_to_set (id <$> this_break);
     cur_priority := Some (priority category);
     breakingteam_table := tbl';
     journal := journal st ++
       [{| call_category := category; call_excluded := higher;
           call_break := this_break |}] |}.

Definition update_all_init (tbl : gmap (Z * Z) BreakingTeam) : all_state :=
  {| teams_broken_higher_priority := ∅; teams_broken_cur_priority := ∅;
     cur_priority := None; breakingteam_table := tbl; journal := [] |}.

Definition update_all_teams_breaking (standings : BreakCategory → list Team)
    (capped : BreakCategory → list nat) (cats : list BreakCategory)
    (tbl : gmap (Z * Z) BreakingTeam) : all_state :=
  foldl (update_all_step standings capped) (update_all_init tbl)
        (order_by_priority cats).

(** ** [AdjudicatorAllocation] ([debate/models.py]) *)

Module AdjudicatorAllocation.

(** [DebateAdjudicator.TYPE_*]. *)
Inductive adj_type : Type := TYPE_CHAIR | TYPE_PANEL | TYPE_TRAINEE.

#[global] Instance adj_type_eq_dec : EqDecision adj_type.
Proof. solve_decision. Defined.

(** A member of an allocation is an [Adjudicator] instance, whose [id]
    is [None] until it is saved, or a bare id. *)
Inductive member : Type :=
  | Adjudicator (adj_id : option Z)
  | BareId (n : Z).

Record t : Type := {
  debate : Z;
  chair : option member;
  panel : list member;
  trainees : list member;
}.

(** A row of the [DebateAdjudicator] table. *)
Record DebateAdjudicator : Type := {
  da_debate : Z;
  da_adjudicator_id : Z;
  da_type : adj_type;
}.

Definition has_chair (a : t) : bool := bool_decide (is_Some (chair a)).

Definition is_panel (a : t) : bool := bool_decide (0 < length (panel a))%nat.

(** [self.has_chair and len(self.panel) % 2 == 0]. *)
Definition valid (a : t) : bool :=
  has_chair a && bool_decide (length (panel a) mod 2 = 0)%nat.

(** [__iter__]: chair, then panel, then trainees. *)
Definition iter (a : t) : list (adj_type * member) :=
  match chair a with Some c => [(TYPE_CHAIR, c)] | None => [] end
  ++ ((λ m, (TYPE_PANEL, m)) <$> panel a)
  ++ ((λ m, (TYPE_TRAINEE, m)) <$> trainees a).

(** [if isinstance(adj, Adjudicator): adj = adj.id] followed by the
    truth test [if adj]: the id to store, if any. *)
Definition stored_id (m : member) : option Z :=
  match m with
  | Adjudicator (Some n) | BareId n => if bool_decide (n = 0) then None else Some n
  | Adjudicator None => None
  end.

Definition row_of (d : Z) (e : adj_type * member) : option DebateAdjudicator :=
  (λ n, {| da_debate := d; da_adjudicator_id := n; da_type := e.1 |})
    <$> stored_id e.2.

(** [save]: the allocation object and the new table.  No statement of
    [save] assigns to [self]. *)
Definition save (a : t) (rows : list DebateAdjudicator)
    : t * list DebateAdjudicator :=
  let rows := filter (λ r, da_debate r ≠ debate a) rows in
  (a, rows ++ omap (row_of (debate a)) (iter a)).

(** [delete]: the rows of the debate are removed and the allocation is
    emptied. *)
Definition delete (a : t) (rows : list DebateAdjudicator)
    : t * list DebateAdjudicator :=
  ({| debate := debate a; chair := None; panel := []; trainees := [] |},
   filter (λ r, da_debate r ≠ debate a) rows).

(** [Debate.adjudicators]: the allocation read back from the rows of
    debate [d], in the order of the table.  Each row yields its
    [Adjudicator] instance; a later chair row replaces an earlier one. *)
Definition load_step (alloc : t) (a : DebateAdjudicator) : t :=
  let adj := Adjudicator (Some (da_adjudicator_id a)) in
  match da_type a with
  | TYPE_CHAIR =>
      {| debate := debate alloc; chair := Some adj; panel := panel alloc;
         trainees := trainees alloc |}
  | TYPE_PANEL =>
      {| debate := debate alloc; chair := chair alloc;
         panel := panel alloc ++ [adj]; trainees := trainees alloc |}
  | TYPE_TRAINEE =>
      {| debate := debate alloc; chair := chair alloc; panel := panel alloc;
         trainees := trainees alloc ++ [adj] |}
  end.

Definition adjudicators (d : Z) (rows : list DebateAdjudicator) : t :=
  foldl load_step
    {| debate := d; chair := None; panel := []; trainees := [] |}
    (filter (λ r, da_debate r = d) rows).



End AdjudicatorAllocation.

(** ** [Round.make_debates] ([debate/models.py]) *)

Module Round.

Record Venue : Type := {
  venue_id : Z;
  venue_priority : Z;
  group : option Z;
}.

#[global] Instance Venue_eq_dec : EqDecision Venue.
Proof. solve_decision. Defined.

(** What [make_debates] reads of a pairing: the two teams and whether
    each is of type ["B"] (bye), the venue group of the division if the
    pairing has one, and the values copied to the debate ([bracket] is
    real-valued in the source and only copied). *)
Record Pairing : Type := {
  teams : (Z * bool) * (Z * bool);
  division : option (option Z);
  bracket : Z;
  room_rank : Z;
  flags : list Z;
}.

Record Debate : Type := {
  debate_round : Z;
  debate_venue : option Venue;
  debate_division : option (option Z);
  debate_bracket : Z;
  debate_room_rank : Z;
  debate_flags : list Z;
}.

Inductive position : Type := POSITION_AFFIRMATIVE | POSITION_NEGATIVE.

(** A [DebateTeam] row; the debate is named by its place in the table. *)
Record DebateTeam : Type := {
  dt_debate : nat;
  dt_team : Z;
  dt_position : position;
}.

Record store : Type := {
  debates : list Debate;
  debateteams : list DebateTeam;
}.

(** [DrawError("There are %d debates but only %d venues.")]. *)
Inductive error : Type := DrawError (n_debates n_venues : nat).

Definition priority_ge (a b : Venue) : Prop := venue_priority b ≤ venue_priority a.

#[global] Instance priority_ge_dec a b : Decision (priority_ge a b).
Proof. unfold priority_ge. apply _. Defined.

(** The [try] block of the loop: the venue chosen for a pairing and the
    venues left.  Every exception inside it ([pop] from an empty list,
    [next] on an exhausted generator) is caught and yields no venue. *)
Definition select_venue (venues : list Venue) (p : Pairing)
    : option Venue * list Venue :=
  match division p with
  | Some vg =>
      if (teams p).1.2 || (teams p).2.2 then (None, venues)
      else match list_find (λ v, group v = vg) venues with
           | Some (k, v) => (Some v, delete k venues)
           | None => (None, venues)
           end
  | None =>
      match venues with
      | v :: rest => (Some v, rest)
      | [] => (None, [])
      end
  end.

(** The body of [for pairing in pairings]. *)
Definition make_debate (round : Z) (acc : list Venue * store) (p : Pairing)
    : list Venue * store :=
  let '(selected_venue, venues) := select_venue acc.1 p in
  let st := acc.2 in
  let debate :=
    {| debate_round := round; debate_venue := selected_venue;
       debate_division := division p; debate_bracket := bracket p;
       debate_room_rank := room_rank p; debate_flags := flags p |} in
  let k := length (debates st) in
  (venues,
   {| debates := debates st ++ [debate];
      debateteams := debateteams st ++
        [{| dt_debate := k; dt_team := (teams p).1.1;
            dt_position := POSITION_AFFIRMATIVE |};
         {| dt_debate := k; dt_team := (teams p).2.1;
            dt_position := POSITION_NEGATIVE |}] |}).

Section make_debates.
(** The outcome of [random.shuffle] on the venues and on the pairings. *)
Variable shuffle_venues : list Venue → list Venue.
Variable shuffle_pairings : list Pairing → list Pairing.

Definition make_debates (round : Z) (active_venues : list Venue)
    (pairings : list Pairing) (st : store) : option error * store :=
  let venues :=
    take (length pairings) (merge_sort priority_ge active_venues) in
  if bool_decide (length venues < length pairings)%nat then
    (Some (DrawError (length pairings) (length venues)), st)
  else
    let venues := shuffle_venues venues in
    let pairings := shuffle_pairings pairings in
    (None, (foldl (make_debate round) (venues, st) pairings).2).
End make_debates.

(** The [STATUS_*] values of a round. *)
Inductive status : Type :=
  STATUS_NONE | STATUS_DRAFT | STATUS_CONFIRMED | STATUS_RELEASED.

#[global] Instance status_eq_dec : EqDecision status.
Proof. solve_decision. Defined.




(** [venue_allocation_validity]: every debate has a venue. *)
Definition venue_allocation_validity (ds : list Debate) : bool :=
  forallb (λ d, bool_decide (is_Some (debate_venue d))) ds.



End Round.

(** *** [generate_all_teams_breaking] and [update_teams_breaking] *)

(** [category.breakingteam_set.all().delete()] for each category. *)
Definition delete_all_breakingteams (cats : list BreakCategory)
    (tbl : gmap (Z * Z) BreakingTeam) : gmap (Z * Z) BreakingTeam :=
  foldl (λ t c, filter (λ kr : (Z * Z) * BreakingTeam, kr.1.1 ≠ pk c) t) tbl cats.

Definition generate_all_teams_breaking (standings : BreakCategory → list Team)
    (capped : BreakCategory → list nat) (cats : list BreakCategory)
    (tbl : gmap (Z * Z) BreakingTeam) : all_state :=
  update_all_teams_breaking standings capped cats
    (delete_all_breakingteams cats tbl).

(** [BreakingTeam.objects.filter(break_category__priority__lt=
    category.priority, break_rank__isnull=False)]: the rows with a break
    rank whose category, looked up in the table of categories, has a
    strictly lower priority number. *)
Definition is_higher_breakingteam (cats : list BreakCategory)
    (category : BreakCategory) (kr : (Z * Z) * BreakingTeam) : Prop :=
  is_Some (break_rank kr.2)
  ∧ Exists (λ c, pk c = kr.1.1 ∧ priority c < priority category) cats.

#[global] Instance is_higher_breakingteam_dec cats category kr :
  Decision (is_higher_breakingteam cats category kr).
Proof. unfold is_higher_breakingteam. apply _. Defined.



(** ** [Submission.save] ([debate/models.py]) *)

Module Submission.

(** The fields of a submission that [save] reads or writes: the values of
    [_unique_filter_args] (all the fields of [unique_together[0]] but
    [version]), the version and the confirmed flag. *)
Record row : Type := {
  key : Z;
  version : Z;
  confirmed : bool;
}.

(** A submission object: its primary key is [None] until it is first
    saved. *)
Record t : Type := {
  pk : option Z;
  fields : row;
}.

(** [objects.get] raises [MultipleObjectsReturned], which [save] does not
    catch; the database raises [IntegrityError] on a write that breaks
    [unique_together], the unique fields with the version. *)
Inductive error : Type := MultipleObjectsReturned | IntegrityError.

Definition set_confirmed (b : bool) (r : row) : row :=
  {| key := key r; version := version r; confirmed := b |}.
Definition set_version (v : Z) (r : row) : row :=
  {| key := key r; version := v; confirmed := confirmed r |}.

(** The rows matched by [objects.get(confirmed=True, **_unique_filter_args)]. *)
Definition confirmed_rows (k : Z) (tbl : gmap Z row) : list (Z * row) :=
  map_to_list (filter (λ pr : Z * row, key pr.2 = k ∧ confirmed pr.2 = true) tbl).

(** [existing.aggregate(Max('version'))], [None] when nothing exists. *)
Definition max_version (k : Z) (tbl : gmap Z row) : option Z :=
  match (λ pr : Z * row, version pr.2)
          <$> map_to_list (filter (λ pr : Z * row, key pr.2 = k) tbl) with
  | [] => None
  | v :: vs => Some (foldr Z.max v vs)
  end.

(** The rows other than [p] that have the unique fields and the version
    of [r]. *)
Definition clashes (p : Z) (r : row) (tbl : gmap Z row) : gmap Z row :=
  filter (λ pr : Z * row,
            pr.1 ≠ p ∧ key pr.2 = key r ∧ version pr.2 = version r) tbl.

(** [models.Model.save]: the row of primary key [p] is written. *)
Definition super_save (p : Z) (r : row) (tbl : gmap Z row)
    : error + gmap Z row :=
  if decide (clashes p r tbl = ∅) then inr (<[p := r]> tbl)
  else inl IntegrityError.

(** The uniqueness check at the head of [save]; [current.save()] finds
    [current] unconfirmed and with a primary key, and only writes it. *)
Definition unconfirm_current (self : t) (tbl : gmap Z row)
    : error + gmap Z row :=
  if confirmed (fields self) then
    match confirmed_rows (key (fields self)) tbl with
    | [] => inr tbl
    | [(p, r)] =>
        if bool_decide (Some p ≠ pk self)
        then super_save p (set_confirmed false r) tbl
        else inr tbl
    | _ => inl MultipleObjectsReturned
    end
  else inr tbl.

(** [save], run on its own (the semaphore keeps two calls apart).
    [fresh] is the primary key that the database gives to a new row. *)
Definition save (self : t) (fresh : Z) (tbl : gmap Z row)
    : error + (t * gmap Z row) :=
  match unconfirm_current self tbl with
  | inl e => inl e
  | inr tbl =>
      let v :=
        match pk self with
        | None =>
            match max_version (key (fields self)) tbl with
            | Some m => m + 1
            | None => 1
            end
        | Some _ => version (fields self)
        end in
      let p := default fresh (pk self) in
      let r := set_version v (fields self) in
      match super_save p r tbl with
      | inl e => inl e
      | inr tbl => inr ({| pk := Some p; fields := r |}, tbl)
      end
  end.



End Submission.

(** ** Notions used to state the properties *)

(** The debate that [make_debates] saves for a pairing given the venue
    selected for it, and the two [DebateTeam] rows of the debate at place
    [k] of the table. *)
Definition debate_of (round : Z) (selected_venue : option Round.Venue)
    (p : Round.Pairing) : Round.Debate :=
  {| Round.debate_round := round; Round.debate_venue := selected_venue;
     Round.debate_division := Round.division p;
     Round.debate_bracket := Round.bracket p;
     Round.debate_room_rank := Round.room_rank p;
     Round.debate_flags := Round.flags p |}.

Definition debateteams_of (k : nat) (p : Round.Pairing) : list Round.DebateTeam :=
  [{| Round.dt_debate := k; Round.dt_team := (Round.teams p).1.1;
      Round.dt_position := Round.POSITION_AFFIRMATIVE |};
   {| Round.dt_debate := k; Round.dt_team := (Round.teams p).2.1;
      Round.dt_position := Round.POSITION_NEGATIVE |}].

(** The debates that a call added to the table of debates, and the venues
    given to them. *)
Definition new_debates (before after : Round.store) : list Round.Debate :=
  drop (length (Round.debates before)) (Round.debates after).

Definition assigned_venues (before after : Round.store) : list Round.Venue :=
  omap Round.debate_venue (new_debates before after).

(** How many teams the walk examined before it ended. *)
Definition processed (tbl : gmap (Z * Z) BreakingTeam) (category : BreakCategory)
    (higher : gset Z) (teams : list Team) : nat :=
  length (breakingteams_all (walk tbl category higher teams)).







(** ** Concrete tournaments used in the examples *)

Definition mk_team (i inst pts spk : Z) (cats : list Z) : Team :=
  {| id := i; institution := inst; points := pts; speaker_score := spk;
     break_categories := cats |}.

Definition mk_category (k prio size : Z) (cap : option Z) (rule : cap_rule)
    : BreakCategory :=
  {| pk := k; priority := prio; break_size := size; is_general := true;
     institution_cap := cap; institution_cap_rule := rule |}.

Definition mk_row (r : Z) (b : option Z) (m : option remark_code) : BreakingTeam :=
  {| rank := r; break_rank := b; remark := m |}.









(** An allocation without a chair and with one panellist. *)
Definition chairless_allocation : AdjudicatorAllocation.t :=
  {| AdjudicatorAllocation.debate := 7;
     AdjudicatorAllocation.chair := None;
     AdjudicatorAllocation.panel := [AdjudicatorAllocation.BareId 4];
     AdjudicatorAllocation.trainees := [] |}.

(** An allocation with a saved chair, a panel holding an adjudicator
    that was never saved, and a trainee given by the id 0; and a table
    with rows of the same debate and of another. *)
Definition mixed_allocation : AdjudicatorAllocation.t :=
  {| AdjudicatorAllocation.debate := 7;
     AdjudicatorAllocation.chair :=
       Some (AdjudicatorAllocation.Adjudicator (Some 1));
     AdjudicatorAllocation.panel :=
       [AdjudicatorAllocation.Adjudicator (Some 2);
        AdjudicatorAllocation.Adjudicator None;
        AdjudicatorAllocation.BareId 3];
     AdjudicatorAllocation.trainees := [AdjudicatorAllocation.BareId 0] |}.


Definition old_rows : list AdjudicatorAllocation.DebateAdjudicator :=
  [{| AdjudicatorAllocation.da_debate := 7;
      AdjudicatorAllocation.da_adjudicator_id := 9;
      AdjudicatorAllocation.da_type := AdjudicatorAllocation.TYPE_CHAIR |};
   {| AdjudicatorAllocation.da_debate := 9;
      AdjudicatorAllocation.da_adjudicator_id := 6;
      AdjudicatorAllocation.da_type := AdjudicatorAllocation.TYPE_CHAIR |}].

(** One venue and two pairings. *)
Definition one_venue : list Round.Venue :=
  [{| Round.venue_id := 1; Round.venue_priority := 10; Round.group := None |}].

Definition two_pairings : list Round.Pairing :=
  [{| Round.teams := ((1, false), (2, false)); Round.division := None;
      Round.bracket := 2; Round.room_rank := 1; Round.flags := [] |};
   {| Round.teams := ((3, false), (4, false)); Round.division := None;
      Round.bracket := 1; Round.room_rank := 2; Round.flags := [] |}].

(** Venues of two venue groups and of different priority, and pairings
    of a division whose venue group is 1, the second with a bye. *)
Definition two_venues : list Round.Venue :=
  [{| Round.venue_id := 1; Round.venue_priority := 10; Round.group := Some 1 |};
   {| Round.venue_id := 2; Round.venue_priority := 20; Round.group := Some 2 |}].

Definition three_venues : list Round.Venue :=
  two_venues
  ++ [{| Round.venue_id := 3; Round.venue_priority := 30; Round.group := None |}].

Definition division_pairings : list Round.Pairing :=
  [{| Round.teams := ((1, false), (2, false)); Round.division := Some (Some 1);
      Round.bracket := 2; Round.room_rank := 1; Round.flags := [] |};
   {| Round.teams := ((3, false), (4, true)); Round.division := Some (Some 1);
      Round.bracket := 1; Round.room_rank := 2; Round.flags := [] |}].

Definition empty_store : Round.store :=
  {| Round.debates := []; Round.debateteams := [] |}.




(** What holds of the state of [update_all_teams_breaking] after the
    categories of [l], in ascending priority order, have been processed. *)
Definition update_all_invariant (l : list BreakCategory) (st : all_state) : Prop :=
  call_category <$> journal st = l
  ∧ cur_priority st = priority <$> last l
  ∧ (∀ e p, e ∈ journal st → cur_priority st = Some p →
       priority (call_category e) ≤ p)
  ∧ (∀ t, t ∈ teams_broken_higher_priority st
          ↔ ∃ e, e ∈ journal st
                 ∧ Some (priority (call_category e)) ≠ cur_priority st
                 ∧ t ∈ id <$> call_break e)
  ∧ (∀ t, t ∈ teams_broken_cur_priority st
          ↔ ∃ e, e ∈ journal st
                 ∧ Some (priority (call_category e)) = cur_priority st
                 ∧ t ∈ id <$> call_break e)
  ∧ (∀ k e t, journal st !! k = Some e →
       t ∈ call_excluded e
       ↔ ∃ k' e', (k' < k)%nat ∧ journal st !! k' = Some e'
                  ∧ priority (call_category e') < priority (call_category e)
                  ∧ t ∈ id <$> call_break e')
  ∧ (∀ e t, e ∈ journal st → t ∈ call_break e → id t ∉ call_excluded e)
  ∧ (∀ e t r, e ∈ journal st →
       breakingteam_table st !! (pk (call_category e), t) = Some r →
       is_Some (break_rank r) → t ∈ id <$> call_break e).

(** Two categories of different priority, given in descending order, and
    the standings of each: the same two teams, both eligible for both. *)
Definition two_categories : list BreakCategory :=
  [mk_category 2 2 1 None INSTITUTION_CAP_RULE_NONE;
   mk_category 1 1 1 None INSTITUTION_CAP_RULE_NONE].

Definition both_eligible (c : BreakCategory) : list Team :=
  [mk_team 1 10 7 300 [1; 2]; mk_team 2 20 6 290 [1; 2]].









Section walk_facts.
Context (tbl : gmap (Z * Z) BreakingTeam) (category : BreakCategory) (higher : gset Z).




(** A step that does not stop appends exactly one object. *)
Lemma walk_step_all i team s s' :
  walk_step tbl category higher i team s = Some s' →
  ∃ o, breakingteams_all s' = breakingteams_all s ++ [o] ∧ bt_team o = id team.
Proof.
  unfold walk_step. destruct (walk_stops category s team); [done|].
  repeat case_match; intros [= <-]; simpl; eauto.
Qed.

Lemma walk_step_length i team s s' :
  walk_step tbl category higher i team s = Some s' →
  length (breakingteams_all s') = S (length (breakingteams_all s)).
Proof.
  intros (o & -> & _)%walk_step_all. rewrite length_app. simpl. lia.
Qed.


Lemma walk_from_prefix i l s :
  breakingteams_all s `prefix_of` breakingteams_all (walk_from tbl category higher i l s).
Proof.
  revert i s. induction l as [|t l IH]; intros i s; simpl; [done|].
  destruct (walk_step tbl category higher i t s) as [s'|] eqn:E; [|done].
  destruct (walk_step_all _ _ _ _ E) as (o & Ho & _).
  etrans; [|apply IH]. rewrite Ho. by apply prefix_app_r.
Qed.

Lemma walk_from_length i l s :
  (length (breakingteams_all (walk_from tbl category higher i l s))
   ≤ length (breakingteams_all s) + length l)%nat.
Proof.
  revert i s. induction l as [|t l IH]; intros i s; simpl; [lia|].
  destruct (walk_step tbl category higher i t s) as [s'|] eqn:E; [|lia].
  specialize (IH (S i) s'). rewrite (walk_step_length _ _ _ _ E) in IH. lia.
Qed.

(** The walk over [l1 ++ l2] is the walk over [l1], continued over [l2]
    unless it stopped inside [l1]. *)
Lemma walk_from_app i l1 l2 s :
  walk_from tbl category higher i (l1 ++ l2) s =
  let s1 := walk_from tbl category higher i l1 s in
  if decide (length (breakingteams_all s1)
             = length (breakingteams_all s) + length l1)%nat
  then walk_from tbl category higher (i + length l1) l2 s1 else s1.
Proof.
  revert i s. induction l1 as [|t l1 IH]; intros i s; simpl.
  - rewrite decide_True by lia. by rewrite Nat.add_0_r.
  - destruct (walk_step tbl category higher i t s) as [s'|] eqn:E.
    + rewrite IH. simpl. rewrite (walk_step_length _ _ _ _ E).
      replace (i + S (length l1))%nat with (S i + length l1)%nat by lia.
      repeat case_decide; try done; lia.
    + rewrite decide_False by lia. done.
Qed.



Definition walk_of := walk tbl category higher.

Lemma processed_le teams : (processed tbl category higher teams ≤ length teams)%nat.
Proof.
  unfold processed, walk.
  etrans; [apply walk_from_length|]. simpl. lia.
Qed.

(** Extending the standings by one team: the walk examines it only if it
    examined every earlier team. *)
Lemma walk_snoc l t :
  walk tbl category higher (l ++ [t]) =
  if decide (processed tbl category higher l = length l)
  then match walk_step tbl category higher (S (length l)) t
               (walk tbl category higher l) with
       | Some s' => s'
       | None => walk tbl category higher l
       end
  else walk tbl category higher l.
Proof.
  unfold walk, processed. rewrite walk_from_app. simpl.
  repeat case_decide; try done; lia.
Qed.

(** A walk that examined [j] teams or more did not stop among the first
    [j], and goes on from the state reached after them. *)
Lemma walk_take teams j :
  (j ≤ processed tbl category higher teams)%nat →
  processed tbl category higher (take j teams) = j
  ∧ walk tbl category higher teams
    = walk_from tbl category higher (S j) (drop j teams)
        (walk tbl category higher (take j teams)).
Proof.
  intros Hj. pose proof (processed_le teams) as Hle.
  assert (length (take j teams) = j) as Hlen by (rewrite length_take; lia).
  pose proof (processed_le (take j teams)) as Hle'.
  assert (walk tbl category higher teams
          = if decide (processed tbl category higher (take j teams) = j)
            then walk_from tbl category higher (S j) (drop j teams)
                   (walk tbl category higher (take j teams))
            else walk tbl category higher (take j teams)) as Heq.
  { unfold processed, walk. rewrite <- (take_drop j teams) at 1.
    rewrite walk_from_app. simpl. by rewrite Hlen. }
  case_decide as Hd; [done|].
  unfold processed in Hj at 1. rewrite Heq in Hj.
  fold (processed tbl category higher (take j teams)) in Hj. lia.
Qed.

(** What the walk does with the team at 0-based position [j]. *)
Lemma walk_step_at teams j t :
  teams !! j = Some t →
  (j ≤ processed tbl category higher teams)%nat →
  match walk_step tbl category higher (S j) t
          (walk tbl category higher (take j teams)) with
  | Some s' => walk tbl category higher (take (S j) teams) = s'
               ∧ (j < processed tbl category higher teams)%nat
  | None => processed tbl category higher teams = j
  end.
Proof.
  intros Ht Hj. destruct (walk_take teams j Hj) as [Hp Hw].
  rewrite (take_S_r _ _ _ Ht), walk_snoc.
  assert (length (take j teams) = j) as Hlen.
  { rewrite length_take. apply lookup_lt_Some in Ht. lia. }
  rewrite Hp, Hlen, decide_True by done.
  rewrite (drop_S _ _ _ Ht) in Hw. simpl in Hw.
  destruct (walk_step _ _ _ _ _ _) as [s'|] eqn:E.
  - split; [done|]. unfold processed. rewrite Hw.
    pose proof (walk_from_prefix (S (S j)) (drop (S j) teams) s') as Hpre.
    apply prefix_length in Hpre.
    rewrite (walk_step_length _ _ _ _ E) in Hpre. fold (processed tbl category higher (take j teams)) in Hpre.
    rewrite Hp in Hpre. lia.
  - unfold processed at 1. rewrite Hw. apply Hp.
Qed.



(** The five outcomes of a step that does not stop, in the order in which
    the source tests them. *)
Lemma walk_step_cases i t s s' o :
  walk_step tbl category higher i t s = Some s' →
  breakingteams_all s' = breakingteams_all s ++ [o] →
  let found := tbl !! (pk category, id t) in
  let base := default new_BreakingTeam found in
  let r := if is_new_rank_at s t then Z.of_nat i else cur_rank s in
  let n := Z.of_nat (counter_get (num_teams_from_institution s) (institution t)) in
  bt_team o = id t
  ∧ bt_existing o = bool_decide (is_Some found)
  ∧ rank (bt_fields o) = r
  ∧ ((∃ row, found = Some row ∧ is_Some (remark row)
        ∧ bt_fields o = {| rank := r; break_rank := None; remark := remark row |}
        ∧ teams_breaking s' = teams_breaking s)
     ∨ ((∀ row, found = Some row → remark row = None)
        ∧ (((pk category ∉ break_categories t)
            ∧ bt_fields o = {| rank := r; break_rank := break_rank base;
                               remark := Some REMARK_INELIGIBLE |}
            ∧ teams_breaking s' = teams_breaking s)
           ∨ (pk category ∈ break_categories t
              ∧ _capped_out category n r = true
              ∧ bt_fields o = {| rank := r; break_rank := break_rank base;
                                 remark := Some REMARK_CAPPED |}
              ∧ teams_breaking s' = teams_breaking s)
           ∨ (pk category ∈ break_categories t
              ∧ _capped_out category n r = false
              ∧ id t ∈ higher
              ∧ bt_fields o = {| rank := r; break_rank := break_rank base;
                                 remark := Some REMARK_DIFFERENT_BREAK |}
              ∧ teams_breaking s' = teams_breaking s)
           ∨ (pk category ∈ break_categories t
              ∧ _capped_out category n r = false
              ∧ (id t ∉ higher)
              ∧ bt_fields o =
                {| rank := r;
                   break_rank := Some (if is_new_rank_at s t
                                       then cur_break_seq s + 1
                                       else cur_break_rank s);
                   remark := None |}
              ∧ teams_breaking s' = teams_breaking s ++ [t])))).
Proof.
  unfold walk_step. destruct (walk_stops category s t); [done|].
  destruct (tbl !! (pk category, id t)) as [row|] eqn:Hfound; simpl.
  - destruct (remark row) as [m|] eqn:Hm; simpl.
    + intros [= <-]; simpl. intros [_ <-]%app_inj_tail. simpl.
      split_and!; [done..|]. left. exists row. rewrite Hm. unfold set_break_rank, set_rank; simpl. rewrite Hm. eauto.
    + repeat case_bool_decide; simpl; try done;
        try destruct (_capped_out _ _ _) eqn:Hcap;
        intros [= <-]; simpl; intros [_ <-]%app_inj_tail; simpl;
        (split_and!; [done..|]); right;
        (split; [by intros ? [= <-]|]);
        unfold set_remark, set_rank, set_break_rank; simpl; rewrite ?Hm;
        naive_solver.
  - repeat case_bool_decide; simpl; try done;
      try destruct (_capped_out _ _ _) eqn:Hcap;
      intros [= <-]; simpl; intros [_ <-]%app_inj_tail; simpl;
      (split_and!; [done..|]); right;
      (split; [done|]);
      unfold set_remark, set_rank, set_break_rank; simpl;
      naive_solver.
Qed.







(** The object at position [j] of [breakingteams_all] is the one the
    step for the team at position [j] appended. *)
Lemma walk_object teams j t :
  teams !! j = Some t →
  (j < processed tbl category higher teams)%nat →
  ∃ s' o,
    walk_step tbl category higher (S j) t
      (walk tbl category higher (take j teams)) = Some s'
    ∧ walk tbl category higher (take (S j) teams) = s'
    ∧ breakingteams_all s'
      = breakingteams_all (walk tbl category higher (take j teams)) ++ [o]
    ∧ breakingteams_all (walk tbl category higher teams) !! j = Some o.
Proof.
  intros Ht Hj.
  pose proof (walk_step_at teams j t Ht ltac:(lia)) as Hs.
  destruct (walk_step _ _ _ _ _ _) as [s'|] eqn:E; [|lia].
  destruct Hs as [Hs _].
  destruct (walk_step_all _ _ _ _ E) as (o & Ho & _).
  exists s', o. split_and!; [done..|].
  destruct (walk_take teams (S j) ltac:(lia)) as [Hp Hw].
  destruct (walk_take teams j ltac:(lia)) as [Hp0 _].
  pose proof (walk_from_prefix (S (S j)) (drop (S j) teams)
                (walk tbl category higher (take (S j) teams))) as Hpre.
  rewrite <- Hw, Hs, Ho in Hpre.
  eapply prefix_lookup_Some; [|done].
  rewrite lookup_app_r; unfold processed in Hp0; rewrite Hp0; [|lia].
  by rewrite Nat.sub_diag.
Qed.


End walk_facts.


(** ** The walk: ranks, stopping rule, institution counter and caps *)

Lemma walk_from_stuck tbl category higher i l s :
  length (breakingteams_all (walk_from tbl category higher i l s))
  = length (breakingteams_all s) →
  walk_from tbl category higher i l s = s.
Proof.
  destruct l as [|t rest]; simpl; [done|].
  destruct (walk_step _ _ _ _ _ _) as [s'|] eqn:E; [|done].
  pose proof (walk_from_prefix tbl category higher (S i) rest s') as Hpre.
  apply prefix_length in Hpre.
  rewrite (walk_step_length _ _ _ _ _ _ _ E) in Hpre. lia.
Qed.

(** The walk over the examined prefix is the whole walk. *)
Lemma walk_processed tbl category higher teams :
  walk tbl category higher teams
  = walk tbl category higher (take (processed tbl category higher teams) teams).
Proof.
  destruct (walk_take tbl category higher teams
              (processed tbl category higher teams)) as [Hp Hw]; [done|].
  rewrite Hw at 1. apply walk_from_stuck. rewrite <- Hw.
  unfold processed in Hp at 1. by rewrite Hp.
Qed.











(** ** Adjudicator allocations *)


(** An allocation that is not valid is saved all the same. *)
Lemma chairless_allocation_saved :
  AdjudicatorAllocation.valid chairless_allocation = false
  ∧ (AdjudicatorAllocation.save chairless_allocation []).2
    = [{| AdjudicatorAllocation.da_debate := 7;
          AdjudicatorAllocation.da_adjudicator_id := 4;
          AdjudicatorAllocation.da_type := AdjudicatorAllocation.TYPE_PANEL |}].
Proof. split; reflexivity. Qed.

(** ** Materialising a draw *)

(** C10: with fewer active venues than pairings, [make_debates] raises
    [DrawError] and the store is the store it was given: no debate and no
    debate team of the new draw has been written. *)
Theorem make_debates_too_few_venues
    (shuffle_venues : list Round.Venue → list Round.Venue)
    (shuffle_pairings : list Round.Pairing → list Round.Pairing)
    (round : Z) (active_venues : list Round.Venue)
    (pairings : list Round.Pairing) (st : Round.store) :
  (length active_venues < length pairings)%nat →
  Round.make_debates shuffle_venues shuffle_pairings round active_venues
    pairings st
  = (Some (Round.DrawError (length pairings) (length active_venues)), st).
Proof.
  intros Hlt. unfold Round.make_debates.
  assert (length (take (length pairings)
                    (merge_sort Round.priority_ge active_venues))
          = length active_venues) as Hlen.
  { rewrite length_take, (Permutation_length (merge_sort_Permutation _ _)). lia. }
  rewrite Hlen, bool_decide_eq_true_2 by done. done.
Qed.

Lemma make_debates_too_few_venues_witness :
  (length one_venue < length two_pairings)%nat
  ∧ Round.make_debates (λ l, l) (λ l, l) 1 one_venue two_pairings empty_store
    = (Some (Round.DrawError (length two_pairings) (length one_venue)),
       empty_store).
Proof.
  split; [simpl; lia|].
  apply (make_debates_too_few_venues (λ l, l) (λ l, l) 1 one_venue
           two_pairings empty_store).
  simpl. lia.
Defined.

(** With venues enough, every pairing becomes a debate. *)
Lemma make_debates_enough_venues
    (shuffle_venues : list Round.Venue → list Round.Venue)
    (shuffle_pairings : list Round.Pairing → list Round.Pairing)
    (round : Z) (active_venues : list Round.Venue)
    (pairings : list Round.Pairing) (st : Round.store) :
  (length pairings ≤ length active_venues)%nat →
  ∃ st',
    Round.make_debates shuffle_venues shuffle_pairings round active_venues
      pairings st = (None, st')
    ∧ length (Round.debates st')
      = (length (Round.debates st) + length (shuffle_pairings pairings))%nat.
Proof.
  intros Hle. unfold Round.make_debates.
  rewrite bool_decide_eq_false_2.
  2:{ rewrite length_take, (Permutation_length (merge_sort_Permutation _ _)). lia. }
  eexists. split; [done|].
  generalize (shuffle_venues
                (take (length pairings)
                   (merge_sort Round.priority_ge active_venues))).
  generalize (shuffle_pairings pairings). clear.
  intros ps. revert st. induction ps as [|p ps IH]; intros st vs; simpl; [lia|].
  unfold Round.make_debate at 2.
  destruct (Round.select_venue (vs, st).1 p) as [sel vs'] eqn:E. simpl.
  rewrite IH. simpl. rewrite length_app. simpl. lia.
Qed.


(** ** Writing the table *)

Lemma write_rows_snoc (c : Z) (objs : list bt_object) (o : bt_object) (tbl : gmap (Z * Z) BreakingTeam) :
  write_rows c (objs ++ [o]) tbl
  = <[(c, bt_team o) := bt_fields o]> (write_rows c objs tbl).
Proof. unfold write_rows. by rewrite foldl_app. Qed.

Lemma write_rows_other (c : Z) (objs : list bt_object) (tbl : gmap (Z * Z) BreakingTeam) (k : Z * Z) :
  k.1 ≠ c → write_rows c objs tbl !! k = tbl !! k.
Proof.
  intros Hk. induction objs as [|o objs IH] using rev_ind; [done|].
  rewrite write_rows_snoc, lookup_insert_ne; [done|].
  intros <-. done.
Qed.



Lemma delete_not_breaking_other (c : Z) (ids : list Z)
    (tbl : gmap (Z * Z) BreakingTeam) (k : Z * Z) :
  k.1 ≠ c → delete_not_breaking c ids tbl !! k = tbl !! k.
Proof.
  intros Hk. unfold delete_not_breaking. rewrite map_lookup_filter.
  destruct (tbl !! k) as [r|]; simpl; [|done].
  rewrite option_guard_True; [done|]. unfold row_kept. simpl. tauto.
Qed.

(** After the final [delete], a row of the category with a break rank
    belongs to a team of the returned break. *)
Lemma delete_not_breaking_break_rank (c : Z) (ids : list Z)
    (tbl : gmap (Z * Z) BreakingTeam) (t : Z) (r : BreakingTeam) :
  delete_not_breaking c ids tbl !! (c, t) = Some r →
  is_Some (break_rank r) → t ∈ ids.
Proof.
  unfold delete_not_breaking. intros [_ Hk]%map_lookup_filter_Some Hb.
  unfold row_kept in Hk. simpl in Hk.
  destruct (decide (t ∈ ids)); [done|]. exfalso. apply Hk. done.
Qed.


Lemma persist_other (category : BreakCategory) (breaking : list Team) (all : list bt_object) (tbl : gmap (Z * Z) BreakingTeam) (k : Z * Z) :
  k.1 ≠ pk category → persist category breaking all tbl !! k = tbl !! k.
Proof.
  intros Hk. unfold persist.
  by rewrite delete_not_breaking_other, !write_rows_other.
Qed.

Lemma persist_break_rank (category : BreakCategory) (breaking : list Team) (all : list bt_object)
    (tbl : gmap (Z * Z) BreakingTeam) (t : Z) (r : BreakingTeam) :
  persist category breaking all tbl !! (pk category, t) = Some r →
  is_Some (break_rank r) → t ∈ id <$> breaking.
Proof. unfold persist. apply delete_not_breaking_break_rank. Qed.



(** ** The objects and the break produced by the walk *)



(** A team of the returned break was examined, carried no earlier remark,
    is eligible and is outside the exclusion set. *)
Lemma walk_breaking tbl category higher teams t :
  t ∈ teams_breaking (walk tbl category higher teams) →
  ∃ j, teams !! j = Some t
       ∧ (j < processed tbl category higher teams)%nat
       ∧ (∀ row, tbl !! (pk category, id t) = Some row → remark row = None)
       ∧ pk category ∈ break_categories t
       ∧ id t ∉ higher.
Proof.
  rewrite walk_processed.
  pose proof (Nat.le_refl (processed tbl category higher teams)) as Hle.
  revert Hle. generalize (processed tbl category higher teams) at 1 3 as n.
  induction n as [|n IH]; intros Hle Ht.
  { rewrite take_0 in Ht. by apply elem_of_nil in Ht. }
  destruct (lookup_lt_is_Some_2 teams n) as [t' Ht'].
  { pose proof (processed_le tbl category higher teams). lia. }
  destruct (walk_object tbl category higher teams n t' Ht' ltac:(lia))
    as (s' & o & E & Hs' & Hall & _).
  rewrite Hs' in Ht.
  destruct (walk_step_cases _ _ _ _ _ _ _ _ E Hall) as (_ & _ & _ & Hcases).
  destruct Hcases as [(row & _ & _ & _ & Hb)|[Hrow Hcases]].
  { rewrite Hb in Ht. apply IH; [lia|done]. }
  destruct Hcases as [(_ & _ & Hb)|[(_ & _ & _ & Hb)
                     |[(_ & _ & _ & _ & Hb)|(Hin & _ & Hh & _ & Hb)]]];
    rewrite Hb in Ht; try (apply IH; [lia|done]).
  apply elem_of_app in Ht as [Ht|Ht]; [apply IH; [lia|done]|].
  apply list_elem_of_singleton in Ht as ->.
  exists n. split_and!; [done|lia|done..].
Qed.

(** ** The backfill fragment *)







(** ** Break ranks in the table do not depend on the backfill fragment *)







(** ** Remarks that are already there *)





(** ** All categories, in priority order *)

#[global] Instance priority_le_trans : Transitive priority_le.
Proof. unfold priority_le. intros a b c. lia. Qed.

#[global] Instance priority_le_total : Total priority_le.
Proof. unfold priority_le. intros a b. lia. Qed.



Lemma update_all_step_journal standings capped st c :
  let st' := update_all_step standings capped st c in
  let higher :=
    if bool_decide (cur_priority st ≠ Some (priority c))
    then teams_broken_higher_priority st ∪ teams_broken_cur_priority st
    else teams_broken_higher_priority st in
  let res := _generate_teams_breaking (breakingteam_table st) c (standings c)
               higher (capped c) in
  teams_broken_higher_priority st' = higher
  ∧ teams_broken_cur_priority st'
    = (if bool_decide (cur_priority st ≠ Some (priority c))
       then ∅ else teams_broken_cur_priority st)
      ∪ list_to_set (id <$> res.2)
  ∧ cur_priority st' = Some (priority c)
  ∧ breakingteam_table st' = res.1
  ∧ journal st' = journal st ++
      [{| call_category := c; call_excluded := higher; call_break := res.2 |}].
Proof.
  intros st' higher res. subst st'. unfold update_all_step.
  fold higher. fold res. by destruct res.
Qed.

Lemma update_all_invariant_holds standings capped tbl l :
  StronglySorted priority_le l →
  NoDup (pk <$> l) →
  update_all_invariant l
    (foldl (update_all_step standings capped) (update_all_init tbl) l).
Proof.
  induction l as [|c l IH] using rev_ind; intros Hsort Hnd.
  { unfold update_all_invariant. simpl.
    split_and!; try done; try (intros; set_solver). }
  rewrite foldl_app. simpl.
  set (st := foldl (update_all_step standings capped) (update_all_init tbl) l) in *.
  destruct (IH (StronglySorted_app_1_l _ _ _ Hsort)) as
    (Hj & Hcp & Hle & Hhi & Hcu & Hex & Hdis & Htb).
  { rewrite fmap_app in Hnd. by apply NoDup_app in Hnd as (? & _ & _). }
  assert (∀ e, e ∈ journal st → priority (call_category e) ≤ priority c) as HA.
  { intros e He.
    apply (StronglySorted_app_1_elem_of priority_le l [c] (call_category e) c Hsort);
      [|by left].
    rewrite <- Hj. apply list_elem_of_fmap. eauto. }
  assert (∀ e, e ∈ journal st → pk (call_category e) ≠ pk c) as HB.
  { intros e He Heq. rewrite fmap_app in Hnd.
    apply NoDup_app in Hnd as (_ & Hd & _). apply (Hd (pk c)); [|by left].
    rewrite <- Heq, <- Hj, <- list_fmap_compose.
    apply list_elem_of_fmap. eauto. }
  assert (∀ e, e ∈ journal st → ∃ p, cur_priority st = Some p) as HC.
  { intros e He. rewrite Hcp.
    assert (is_Some (last l)) as [y ->]; [|by eauto].
    rewrite last_is_Some, <- Hj. intros Hnil%fmap_nil_inv.
    rewrite Hnil in He. by apply elem_of_nil in He. }
  assert (∀ p, cur_priority st = Some p → p ≤ priority c) as HD.
  { intros p. rewrite Hcp. destruct (last l) as [y|] eqn:Hl; [|done].
    intros [= <-].
    apply (StronglySorted_app_1_elem_of priority_le l [c] y c Hsort);
      [|by left].
    apply last_Some in Hl as [l' ->]. apply elem_of_app. right. by left. }
  destruct (update_all_step_journal standings capped st c)
    as (Hhi' & Hcu' & Hcp' & Htb' & Hj').
  set (st' := update_all_step standings capped st c) in *.
  set (higher := if bool_decide (cur_priority st ≠ Some (priority c))
                 then teams_broken_higher_priority st ∪ teams_broken_cur_priority st
                 else teams_broken_higher_priority st) in *.
  set (res := _generate_teams_breaking (breakingteam_table st) c (standings c)
                higher (capped c)) in *.
  set (ec := {| call_category := c; call_excluded := higher;
                call_break := res.2 |}) in *.
  assert (∀ t, t ∈ higher
               ↔ ∃ e, e ∈ journal st
                      ∧ priority (call_category e) < priority c
                      ∧ t ∈ id <$> call_break e) as Hhigher.
  { intros t. subst higher. case_bool_decide as Hnl.
    - rewrite elem_of_union, Hhi, Hcu. split.
      + intros [(e & He & Hp & Ht)|(e & He & Hp & Ht)]; exists e;
          (split_and!; [done| |done]);
          destruct (HC e He) as [p Hp']; pose proof (Hle e p He Hp');
          pose proof (HD p Hp'); rewrite Hp' in Hnl, Hp;
          assert (p ≠ priority c) by congruence; lia.
      + intros (e & He & Hp & Ht).
        destruct (decide (Some (priority (call_category e)) = cur_priority st));
          [right|left]; eauto.
    - rewrite Hhi, Hnl. split.
      + intros (e & He & Hp & Ht). exists e. split_and!; [done| |done].
        pose proof (HA e He). assert (priority (call_category e) ≠ priority c)
          by congruence. lia.
      + intros (e & He & Hp & Ht). exists e. split_and!; [done| |done].
        intros [= Heq]. lia. }
  unfold update_all_invariant. rewrite Hhi', Hcu', Hcp', Htb', Hj'.
  split_and!.
  - by rewrite fmap_app, Hj.
  - by rewrite last_snoc.
  - intros e p [He| ->%list_elem_of_singleton]%elem_of_app [= <-].
    + by apply HA.
    + simpl. lia.
  - intros t. rewrite Hhigher. split.
    + intros (e & He & Hp & Ht). exists e.
      split_and!; [apply elem_of_app; by left| |done]. intros [= ?]. lia.
    + intros (e & [He| ->%list_elem_of_singleton]%elem_of_app & Hp & Ht);
        [|done].
      exists e. split_and!; [done| |done].
      pose proof (HA e He).
      assert (priority (call_category e) ≠ priority c) by congruence. lia.
  - intros t. rewrite elem_of_union, elem_of_list_to_set.
    case_bool_decide as Hnl.
    + split.
      * intros [H|H]; [set_solver|]. exists ec.
        split_and!; [apply elem_of_app; right; by left|done|done].
      * intros (e & [He| ->%list_elem_of_singleton]%elem_of_app & Hp & Ht);
          [|by right].
        exfalso. destruct (HC e He) as [p Hp'].
        pose proof (Hle e p He Hp'). pose proof (HD p Hp').
        rewrite Hp' in Hnl.
        assert (p ≠ priority c) by congruence.
        assert (priority (call_category e) = priority c) by congruence. lia.
    + split.
      * intros [H|H].
        -- apply Hcu in H as (e & He & Hp & Ht). exists e.
           split_and!; [apply elem_of_app; by left|congruence|done].
        -- exists ec.
           split_and!; [apply elem_of_app; right; by left|done|done].
      * intros (e & [He| ->%list_elem_of_singleton]%elem_of_app & Hp & Ht);
          [|by right].
        left. apply Hcu. exists e. split_and!; [done|congruence|done].
  - intros k e t Hk. destruct (decide (k < length (journal st))%nat) as [Hlt|Hge].
    + rewrite lookup_app_l in Hk by done. rewrite (Hex k e t Hk).
      split; intros (k' & e' & Hlt' & Hk' & Hp & Ht); exists k', e';
        (split_and!; [done| |done..]).
      * by rewrite lookup_app_l by lia.
      * by rewrite lookup_app_l in Hk' by lia.
    + rewrite lookup_app_r in Hk by lia.
      apply list_lookup_singleton_Some in Hk as [Hk0 <-].
      simpl. rewrite Hhigher. split.
      * intros (e & He & Hp & Ht).
        apply list_elem_of_lookup in He as [k' Hk'].
        pose proof (lookup_lt_Some _ _ _ Hk').
        exists k', e. split_and!; [lia| |done..].
        by rewrite lookup_app_l by lia.
      * intros (k' & e' & Hlt' & Hk' & Hp & Ht).
        rewrite lookup_app_l in Hk' by lia.
        exists e'. split_and!; [|done..].
        apply list_elem_of_lookup. eauto.
  - intros e t [He| ->%list_elem_of_singleton]%elem_of_app Ht.
    + by apply (Hdis e t).
    + simpl in *. unfold res, _generate_teams_breaking in Ht. simpl in Ht.
      by apply walk_breaking in Ht as (_ & _ & _ & _ & _ & Hh).
  - intros e t r [He| ->%list_elem_of_singleton]%elem_of_app Hr Hb.
    + apply (Htb e t r He); [|done].
      unfold res, _generate_teams_breaking in Hr. simpl in Hr.
      rewrite persist_other in Hr; [done|]. simpl. by apply HB.
    + simpl in *. unfold res, _generate_teams_breaking in Hr. simpl in Hr.
      by eapply persist_break_rank.
Qed.



(** In the example, the leader breaks in category 1 and is marked
    "different break" in category 2, where the second team breaks. *)
Lemma two_categories_table :
  map_to_list
    (breakingteam_table
       (update_all_teams_breaking both_eligible (λ _, []) two_categories ∅))
  ≡ₚ [((1, 1), mk_row 1 (Some 1) None);
      ((2, 1), mk_row 1 None (Some REMARK_DIFFERENT_BREAK));
      ((2, 2), mk_row 2 (Some 1) None)].
Proof. vm_compute. apply (bool_decide_unpack _). vm_compute. exact I. Qed.


(** ** Further properties of the walk *)









(** *** Ranks *)





(** *** Objects made for teams without a row *)



(** *** The plain case: no cap, no exclusion, no remark, all eligible *)





(** *** The break and the table *)










(** ** Regenerating all breaks, and updating one *)




(** After [generate_all_teams_breaking], a row of one of the categories
    has a break rank only if its team was returned as breaking by the call
    for that category, and the table holds no row of these categories but
    those that the calls wrote. *)
Lemma generate_all_rows standings capped cats tbl e t r :
  NoDup (pk <$> cats) →
  e ∈ journal (generate_all_teams_breaking standings capped cats tbl) →
  breakingteam_table (generate_all_teams_breaking standings capped cats tbl)
    !! (pk (call_category e), t) = Some r →
  is_Some (break_rank r) → t ∈ id <$> call_break e.
Proof.
  intros Hnd He Hr Hb. unfold generate_all_teams_breaking in *.
  unfold update_all_teams_breaking in *.
  assert (StronglySorted priority_le (order_by_priority cats)) as Hsort.
  { apply StronglySorted_merge_sort; apply _. }
  assert (NoDup (pk <$> order_by_priority cats)) as Hnd'.
  { unfold order_by_priority. by rewrite merge_sort_Permutation. }
  destruct (update_all_invariant_holds standings capped
              (delete_all_breakingteams cats tbl)
              (order_by_priority cats) Hsort Hnd')
    as (_ & _ & _ & _ & _ & _ & _ & Htb).
  by eapply Htb.
Qed.





(** ** Saving and reading back adjudicator allocations *)

Section allocation_facts.
Import AdjudicatorAllocation.


Lemma filter_none {A} (P : A → Prop) `{!∀ x, Decision (P x)} (l : list A) :
  Forall (λ x, ¬ P x) l → filter P l = [].
Proof.
  induction 1 as [|x l Hx _ IH]; [done|].
  by rewrite filter_cons, decide_False, IH.
Qed.

Lemma Forall_rows_debate (d : Z) (l : list (adj_type * member)) :
  Forall (λ r, da_debate r = d) (omap (row_of d) l).
Proof.
  apply Forall_forall. intros r (e & _ & He)%list_elem_of_omap.
  unfold row_of in He. destruct (stored_id e.2); simplify_eq/=. done.
Qed.








Lemma rows_of_other_debate_saved (a : t) (d : Z) (rows : list DebateAdjudicator) :
  d ≠ debate a →
  filter (λ r, da_debate r = d) (save a rows).2
  = filter (λ r, da_debate r = d) rows.
Proof.
  intros Hd. unfold save. simpl. rewrite filter_app.
  rewrite (filter_none (λ r, da_debate r = d) (omap _ _)).
  2:{ eapply Forall_impl; [apply Forall_rows_debate|]. simpl. congruence. }
  rewrite app_nil_r, list_filter_filter. apply list_filter_iff.
  intros r. split; [by intros [? _]|]. intros Hr. split; [done|congruence].
Qed.




(** X15: [save] touches the rows of its own debate only, so the allocation of
    every other debate reads as before. *)
Theorem save_other_debates (a : t) (d : Z) (rows : list DebateAdjudicator) :
  d ≠ debate a → adjudicators d (save a rows).2 = adjudicators d rows.
Proof.
  intros Hd. unfold adjudicators. by rewrite rows_of_other_debate_saved.
Qed.

Lemma save_other_debates_witness :
  9 ≠ debate mixed_allocation
  ∧ adjudicators 9 (save mixed_allocation old_rows).2 = adjudicators 9 old_rows.
Proof.
  split; [done|]. by apply (save_other_debates mixed_allocation 9 old_rows).
Defined.

(** X16: Saving an allocation twice leaves the table that saving it once
    leaves. *)
Theorem save_twice (a : t) (rows : list DebateAdjudicator) :
  save a (save a rows).2 = save a rows.
Proof.
  unfold save. simpl. f_equal. f_equal. rewrite filter_app.
  rewrite (filter_none (λ r, da_debate r ≠ debate a) (omap _ _)).
  2:{ eapply Forall_impl; [apply Forall_rows_debate|]. simpl. by intros r -> ?. }
  rewrite app_nil_r, list_filter_filter. apply list_filter_iff.
  intros r. tauto.
Qed.


(** *** Allocating the adjudicators of a round *)





End allocation_facts.






(** ** The debates of a draw *)

Lemma make_debate_eq (round : Z) (vs : list Round.Venue) (st : Round.store)
    (p : Round.Pairing) :
  Round.make_debate round (vs, st) p
  = ((Round.select_venue vs p).2,
     {| Round.debates :=
          Round.debates st ++ [debate_of round (Round.select_venue vs p).1 p];
        Round.debateteams :=
          Round.debateteams st ++ debateteams_of (length (Round.debates st)) p |}).
Proof.
  unfold Round.make_debate. simpl. by destruct (Round.select_venue vs p).
Qed.

(** The venue selected is taken out of the list of venues, and nothing
    else is. *)
Lemma select_venue_Permutation (vs : list Round.Venue) (p : Round.Pairing) :
  vs ≡ₚ option_list (Round.select_venue vs p).1 ++ (Round.select_venue vs p).2.
Proof.
  unfold Round.select_venue. destruct (Round.division p) as [vg|].
  - destruct (_ || _); [done|].
    destruct (list_find _ vs) as [[k v]|] eqn:Hfind; [|done]. simpl.
    apply list_find_Some in Hfind as (Hk & _ & _).
    by apply delete_Permutation.
  - by destruct vs.
Qed.

(** In a division the venue selected is of the venue group of the
    division, and a bye gets none. *)
Lemma select_venue_division (vs : list Round.Venue) (p : Round.Pairing)
    (vg : option Z) :
  Round.division p = Some vg →
  match (Round.select_venue vs p).1 with
  | Some v => Round.group v = vg
               ∧ (Round.teams p).1.2 = false ∧ (Round.teams p).2.2 = false
  | None => True
  end.
Proof.
  intros Hdiv. unfold Round.select_venue. rewrite Hdiv.
  destruct (_ || _) eqn:Hbye; [done|].
  apply orb_false_iff in Hbye.
  destruct (list_find _ vs) as [[k v]|] eqn:Hfind; [|done]. simpl.
  by apply list_find_Some in Hfind as (_ & Hg & _).
Qed.

Lemma make_debate_fold (round : Z) (venues : list Round.Venue)
    (st : Round.store) (ps : list Round.Pairing) :
  ∃ new,
    (foldl (Round.make_debate round) (venues, st) ps).2
    = {| Round.debates := Round.debates st ++ new;
         Round.debateteams :=
           Round.debateteams st
           ++ mjoin (imap (λ i p, debateteams_of (length (Round.debates st) + i) p)
                          ps) |}
    ∧ Forall2 (λ p d, ∃ vs, d = debate_of round (Round.select_venue vs p).1 p)
              ps new
    ∧ venues ≡ₚ omap Round.debate_venue new
                 ++ (foldl (Round.make_debate round) (venues, st) ps).1
    ∧ (Forall (λ p, Round.division p = None) ps →
       (length ps ≤ length venues)%nat →
       (foldl (Round.make_debate round) (venues, st) ps).1
       = drop (length ps) venues
       ∧ Forall (λ d, is_Some (Round.debate_venue d)) new).
Proof.
  induction ps as [|p ps IH] using rev_ind.
  { exists []. simpl. rewrite !app_nil_r. split_and!; try done.
    by destruct st. }
  destruct IH as (new & Hst & Hf2 & Hperm & Hnodiv).
  rewrite foldl_app. cbn [foldl].
  destruct (foldl (Round.make_debate round) (venues, st) ps) as [vs st'] eqn:Hfold.
  simpl in Hst, Hperm, Hnodiv. subst st'.
  rewrite make_debate_eq. cbn [fst snd Round.debates Round.debateteams].
  exists (new ++ [debate_of round (Round.select_venue vs p).1 p]).
  split_and!.
  - f_equal; [by rewrite app_assoc|].
    rewrite imap_app, join_app, <- !app_assoc. simpl.
    rewrite length_app, Nat.add_0_r, (Forall2_length _ _ _ Hf2). done.
  - apply Forall2_app; [done|]. constructor; [by eexists|constructor].
  - rewrite omap_app, <- app_assoc, Hperm. f_equiv.
    rewrite (select_venue_Permutation vs p) at 1. f_equiv.
    cbn. by destruct (Round.select_venue vs p).1.
  - rewrite Forall_app, Forall_singleton, length_app. simpl.
    intros [Hps Hp] Hlen.
    destruct Hnodiv as [-> Hnew]; [done|lia|].
    unfold Round.select_venue. rewrite Hp.
    destruct (drop (length ps) venues) as [|v rest] eqn:Hdrop.
    { apply (f_equal length) in Hdrop. rewrite length_drop in Hdrop.
      simpl in Hdrop. lia. }
    simpl. split.
    + rewrite <- (drop_drop venues 1 (length ps)), Hdrop. done.
    + apply Forall_app. split; [done|]. apply Forall_singleton. by eexists.
Qed.

(** What [make_debates] does once the venues are enough. *)
Lemma make_debates_run
    (shuffle_venues : list Round.Venue → list Round.Venue)
    (shuffle_pairings : list Round.Pairing → list Round.Pairing)
    (round : Z) (active_venues : list Round.Venue)
    (pairings : list Round.Pairing) (st : Round.store) :
  (length pairings ≤ length active_venues)%nat →
  Round.make_debates shuffle_venues shuffle_pairings round active_venues
    pairings st
  = (None,
     (foldl (Round.make_debate round)
        (shuffle_venues (take (length pairings)
                           (merge_sort Round.priority_ge active_venues)), st)
        (shuffle_pairings pairings)).2).
Proof.
  intros Hle. unfold Round.make_debates.
  rewrite bool_decide_eq_false_2; [done|].
  rewrite length_take, (Permutation_length (merge_sort_Permutation _ _)). lia.
Qed.

Lemma new_debates_app (st : Round.store) (new : list Round.Debate)
    (dts : list Round.DebateTeam) :
  new_debates st {| Round.debates := Round.debates st ++ new;
                    Round.debateteams := dts |} = new.
Proof. unfold new_debates. simpl. by rewrite drop_app_length. Qed.

(** X20: With venues enough, [make_debates] adds one debate for each pairing,
    in the shuffled order, after the debates that the table held, with the
    division, bracket, room rank and flags of the pairing; and for the
    debate at place [k] two [DebateTeam] rows, the first team of the
    pairing as affirmative and the second as negative. *)
Theorem make_debates_rows
    (shuffle_venues : list Round.Venue → list Round.Venue)
    (shuffle_pairings : list Round.Pairing → list Round.Pairing)
    (round : Z) (active_venues : list Round.Venue)
    (pairings : list Round.Pairing) (st : Round.store) :
  (length pairings ≤ length active_venues)%nat →
  ∃ st',
    Round.make_debates shuffle_venues shuffle_pairings round active_venues
      pairings st = (None, st')
    ∧ Round.debates st' = Round.debates st ++ new_debates st st'
    ∧ Forall2 (λ p d, Round.debate_round d = round
                      ∧ Round.debate_division d = Round.division p
                      ∧ Round.debate_bracket d = Round.bracket p
                      ∧ Round.debate_room_rank d = Round.room_rank p
                      ∧ Round.debate_flags d = Round.flags p)
              (shuffle_pairings pairings) (new_debates st st')
    ∧ Round.debateteams st'
      = Round.debateteams st
        ++ mjoin (imap (λ i p, debateteams_of (length (Round.debates st) + i) p)
                       (shuffle_pairings pairings)).
Proof.
  intros Hle. rewrite make_debates_run by done. eexists. split; [done|].
  destruct (make_debate_fold round
              (shuffle_venues (take (length pairings)
                                 (merge_sort Round.priority_ge active_venues)))
              st (shuffle_pairings pairings)) as (new & -> & Hf2 & _).
  rewrite new_debates_app. split_and!; [done| |done].
  eapply Forall2_impl; [exact Hf2|]. by intros p d [vs ->].
Qed.

Lemma make_debates_rows_witness :
  (length two_pairings ≤ length two_venues)%nat
  ∧ ∃ st',
      Round.make_debates (λ l, l) reverse 1 two_venues
        two_pairings empty_store = (None, st')
      ∧ Round.debates st' = Round.debates empty_store ++ new_debates empty_store st'
      ∧ Forall2 (λ p d, Round.debate_round d = 1
                        ∧ Round.debate_division d = Round.division p
                        ∧ Round.debate_bracket d = Round.bracket p
                        ∧ Round.debate_room_rank d = Round.room_rank p
                        ∧ Round.debate_flags d = Round.flags p)
                (reverse two_pairings) (new_debates empty_store st')
      ∧ Round.debateteams st'
        = Round.debateteams empty_store
          ++ mjoin (imap (λ i p, debateteams_of
                                   (length (Round.debates empty_store) + i) p)
                         (reverse two_pairings)).
Proof.
  split; [simpl; lia|].
  apply (make_debates_rows (λ l, l) reverse 1 two_venues two_pairings
           empty_store).
  simpl. lia.
Defined.

(** X21: A debate of a pairing in a division gets a venue of the venue group
    of the division or none, and none when one of the teams is a bye. *)
Theorem make_debates_division_venue
    (shuffle_venues : list Round.Venue → list Round.Venue)
    (shuffle_pairings : list Round.Pairing → list Round.Pairing)
    (round : Z) (active_venues : list Round.Venue)
    (pairings : list Round.Pairing) (st : Round.store) :
  (length pairings ≤ length active_venues)%nat →
  Forall2 (λ p d, ∀ vg, Round.division p = Some vg →
                    ((Round.teams p).1.2 = true ∨ (Round.teams p).2.2 = true →
                     Round.debate_venue d = None)
                    ∧ ∀ v, Round.debate_venue d = Some v → Round.group v = vg)
    (shuffle_pairings pairings)
    (new_debates st
       (Round.make_debates shuffle_venues shuffle_pairings round active_venues
          pairings st).2).
Proof.
  intros Hle. rewrite make_debates_run by done. cbn [snd].
  destruct (make_debate_fold round
              (shuffle_venues (take (length pairings)
                                 (merge_sort Round.priority_ge active_venues)))
              st (shuffle_pairings pairings)) as (new & -> & Hf2 & _).
  rewrite new_debates_app.
  eapply Forall2_impl; [exact Hf2|]. intros p d [vs ->] vg Hdiv. simpl.
  pose proof (select_venue_division vs p vg Hdiv) as Hsel.
  destruct (Round.select_venue vs p).1 as [v|].
  - destruct Hsel as (Hg & Ha & Hn). split; [|congruence].
    intros [?|?]; congruence.
  - done.
Qed.

Lemma make_debates_division_venue_witness :
  (length division_pairings ≤ length two_venues)%nat
  ∧ Forall2 (λ p d, ∀ vg, Round.division p = Some vg →
                      ((Round.teams p).1.2 = true ∨ (Round.teams p).2.2 = true →
                       Round.debate_venue d = None)
                      ∧ ∀ v, Round.debate_venue d = Some v → Round.group v = vg)
      division_pairings
      (new_debates empty_store
         (Round.make_debates (λ l, l) (λ l, l) 1 two_venues
            division_pairings empty_store).2).
Proof.
  split; [simpl; lia|].
  apply (make_debates_division_venue (λ l, l) (λ l, l) 1 two_venues
           division_pairings empty_store).
  simpl. lia.
Defined.

(** X22: No venue is given to two debates: the venues given to the new
    debates are, as a multiset, among the active venues, whatever the
    shuffle; so with the active venues distinct they are distinct. *)
Theorem make_debates_venue_once
    (shuffle_venues : list Round.Venue → list Round.Venue)
    (shuffle_pairings : list Round.Pairing → list Round.Pairing)
    (round : Z) (active_venues : list Round.Venue)
    (pairings : list Round.Pairing) (st : Round.store) :
  (∀ l, shuffle_venues l ≡ₚ l) →
  (length pairings ≤ length active_venues)%nat →
  let st' := (Round.make_debates shuffle_venues shuffle_pairings round
                active_venues pairings st).2 in
  assigned_venues st st' ⊆+ active_venues
  ∧ (NoDup active_venues → NoDup (assigned_venues st st')).
Proof.
  intros Hshuffle Hle st'. subst st'. rewrite make_debates_run by done.
  cbn [snd].
  destruct (make_debate_fold round
              (shuffle_venues (take (length pairings)
                                 (merge_sort Round.priority_ge active_venues)))
              st (shuffle_pairings pairings)) as (new & -> & _ & Hperm & _).
  unfold assigned_venues. rewrite new_debates_app.
  assert (omap Round.debate_venue new ⊆+ active_venues) as Hsub.
  { transitivity (shuffle_venues
                    (take (length pairings)
                       (merge_sort Round.priority_ge active_venues))).
    { rewrite Hperm. by apply submseteq_inserts_r. }
    rewrite Hshuffle.
    transitivity (merge_sort Round.priority_ge active_venues).
    { apply sublist_submseteq, sublist_take. }
    by rewrite merge_sort_Permutation. }
  split; [done|]. intros Hnd.
  apply submseteq_Permutation in Hsub as [k Hk]. rewrite Hk in Hnd.
  by apply NoDup_app in Hnd as [? _].
Qed.

Lemma make_debates_venue_once_witness :
  (∀ l : list Round.Venue, reverse l ≡ₚ l)
  ∧ (length two_pairings ≤ length two_venues)%nat
  ∧ assigned_venues empty_store
      (Round.make_debates reverse (λ l, l) 1 two_venues two_pairings
         empty_store).2 ⊆+ two_venues
  ∧ (NoDup two_venues →
     NoDup (assigned_venues empty_store
              (Round.make_debates reverse (λ l, l) 1 two_venues two_pairings
                 empty_store).2)).
Proof.
  split; [apply reverse_Permutation|]. split; [simpl; lia|].
  apply (make_debates_venue_once reverse (λ l, l) 1 two_venues two_pairings
           empty_store).
  - apply reverse_Permutation.
  - simpl. lia.
Defined.

#[global] Instance priority_ge_trans : Transitive Round.priority_ge.
Proof. unfold Round.priority_ge. intros a b c. lia. Qed.

#[global] Instance priority_ge_total : Total Round.priority_ge.
Proof. unfold Round.priority_ge. intros a b. lia. Qed.

(** X23: Without divisions and with venues enough, every new debate has a
    venue, and the venues used are those of highest priority: the active
    venues are the venues given and a rest, of which none has a priority
    above that of a venue given. *)
Theorem make_debates_without_divisions
    (shuffle_venues : list Round.Venue → list Round.Venue)
    (shuffle_pairings : list Round.Pairing → list Round.Pairing)
    (round : Z) (active_venues : list Round.Venue)
    (pairings : list Round.Pairing) (st : Round.store) :
  (∀ l, shuffle_venues l ≡ₚ l) →
  (∀ l, shuffle_pairings l ≡ₚ l) →
  Forall (λ p, Round.division p = None) pairings →
  (length pairings ≤ length active_venues)%nat →
  let st' := (Round.make_debates shuffle_venues shuffle_pairings round
                active_venues pairings st).2 in
  Round.venue_allocation_validity (new_debates st st') = true
  ∧ length (assigned_venues st st') = length pairings
  ∧ ∃ rest, active_venues ≡ₚ assigned_venues st st' ++ rest
            ∧ ∀ v w, v ∈ assigned_venues st st' → w ∈ rest →
                Round.venue_priority w ≤ Round.venue_priority v.
Proof.
  intros Hsv Hsp Hnodiv Hle st'. subst st'. rewrite make_debates_run by done.
  cbn [snd].
  set (sorted := merge_sort Round.priority_ge active_venues).
  destruct (make_debate_fold round
              (shuffle_venues (take (length pairings) sorted))
              st (shuffle_pairings pairings))
    as (new & -> & _ & Hperm & Hdrop).
  unfold assigned_venues. rewrite new_debates_app.
  assert (length sorted = length active_venues) as Hlen.
  { unfold sorted. by rewrite merge_sort_Permutation. }
  destruct Hdrop as [Hrest Hnew].
  { by rewrite Hsp. }
  { rewrite Hsp, Hsv, length_take. lia. }
  rewrite Hrest in Hperm.
  rewrite drop_ge, app_nil_r in Hperm.
  2:{ rewrite Hsp, Hsv, length_take. lia. }
  rewrite Hsv in Hperm.
  split_and!.
  - unfold Round.venue_allocation_validity. apply forallb_forall.
    intros d Hd%list_elem_of_In. apply bool_decide_eq_true.
    by apply (proj1 (Forall_forall _ _) Hnew).
  - rewrite <- Hperm, length_take. lia.
  - exists (drop (length pairings) sorted). split.
    + rewrite <- Hperm, take_drop. unfold sorted.
      by rewrite merge_sort_Permutation.
    + intros v w Hv Hw. rewrite <- Hperm in Hv.
      assert (StronglySorted Round.priority_ge
                (take (length pairings) sorted ++ drop (length pairings) sorted))
        as Hs.
      { rewrite take_drop. apply StronglySorted_merge_sort; apply _. }
      change (Round.priority_ge v w).
      eapply StronglySorted_app_1_elem_of; [exact Hs|done|done].
Qed.

Lemma make_debates_without_divisions_witness :
  (∀ l : list Round.Venue, reverse l ≡ₚ l)
  ∧ (∀ l : list Round.Pairing, reverse l ≡ₚ l)
  ∧ Forall (λ p, Round.division p = None) two_pairings
  ∧ (length two_pairings ≤ length three_venues)%nat
  ∧ Round.venue_allocation_validity
      (new_debates empty_store
         (Round.make_debates reverse reverse 1 three_venues two_pairings
            empty_store).2) = true
  ∧ length (assigned_venues empty_store
              (Round.make_debates reverse reverse 1 three_venues two_pairings
                 empty_store).2) = length two_pairings
  ∧ ∃ rest,
      three_venues
      ≡ₚ assigned_venues empty_store
           (Round.make_debates reverse reverse 1 three_venues two_pairings
              empty_store).2 ++ rest
      ∧ ∀ v w,
          v ∈ assigned_venues empty_store
                (Round.make_debates reverse reverse 1 three_venues
                   two_pairings empty_store).2 →
          w ∈ rest → Round.venue_priority w ≤ Round.venue_priority v.
Proof.
  assert (Forall (λ p, Round.division p = None) two_pairings) as Hnodiv.
  { repeat constructor. }
  split; [apply reverse_Permutation|]. split; [apply reverse_Permutation|].
  split; [exact Hnodiv|]. split; [simpl; lia|].
  apply (make_debates_without_divisions reverse reverse 1 three_venues
           two_pairings empty_store).
  - apply reverse_Permutation.
  - apply reverse_Permutation.
  - exact Hnodiv.
  - simpl. lia.
Defined.


(** ** Saving a submission *)

Section submission_facts.
Import Submission.













End submission_facts.


(** ** Availability of venues, adjudicators and teams *)








(** ** The table after all categories have been updated *)








